(** * Simple Async Port Scanner: a shallow embedding of [simple_async_scan.py]

    The development follows the source file top to bottom:
    - [Exn]: the Python exception classes the scanner meets and their
      subclass relation;
    - [Probe]: the coroutine [AsyncTCPScanner.__tcp_connection] with
      [contextlib.suppress] and [asyncio.wait_for], written in a small
      state-and-exception monad that keeps the local variable [port_state],
      the calls made on the streams interface and the time elapsed;
    - [Loop]: [asyncio.create_task] / [asyncio.gather] over an event loop that
      completes tasks by increasing completion time;
    - [Scanner]: the class [AsyncTCPScanner] ([__init__], [register],
      [__notify_all], [execute], [__scan_targets]) over Python iterables that
      are either re-iterable sequences or single-pass iterators;
    - [Ports]: the command-line helper [parse_ports] with Python's [str.split]
      and [int].

    The asyncio primitives are modelled as documented for the interpreter
    versions on which [open_connection] still takes [loop=] (3.7 to 3.9). *)

From Stdlib Require Import ZArith QArith Lia Ascii String DecimalString DecimalNat.
From stdpp Require Import base list strings.

Local Open Scope Z_scope.

(** ** Exceptions *)

Module Exn.

(** The exception classes that can reach the scanner. *)
Inductive exn_class : Set :=
  | BaseException
  | Exception
  | KeyboardInterrupt
  | CancelledError
  | OSError
  | ConnectionError
  | ConnectionRefusedError
  | ConnectionResetError
  | BuiltinTimeoutError
  | GaiError
  | AsyncioTimeoutError
  | ArithmeticError
  | OverflowError
  | ValueError
  | UnicodeError
  | TypeError
  | UnboundLocalError.

#[export] Instance exn_class_eq_dec : EqDecision exn_class.
Proof. solve_decision. Defined.

(** The direct base class; [BaseException] is the root. *)
Definition base (c : exn_class) : option exn_class :=
  match c with
  | BaseException => None
  | Exception | KeyboardInterrupt | CancelledError => Some BaseException
  | OSError | AsyncioTimeoutError | ArithmeticError | ValueError
  | TypeError | UnboundLocalError => Some Exception
  | ConnectionError | BuiltinTimeoutError | GaiError => Some OSError
  | ConnectionRefusedError | ConnectionResetError => Some ConnectionError
  | OverflowError => Some ArithmeticError
  | UnicodeError => Some ValueError
  end.

(** [issubclass c d], walking up the chain of bases (depth at most 4). *)
Fixpoint issubclass_fuel (fuel : nat) (c d : exn_class) : bool :=
  if decide (c = d) then true
  else match fuel with
       | O => false
       | S fuel' =>
           match base c with
           | Some b => issubclass_fuel fuel' b d
           | None => false
           end
       end.

Definition issubclass (c d : exn_class) : bool := issubclass_fuel 4 c d.

(** [issubclass(exctype, self._exceptions)] with a tuple of classes. *)
Definition issubclass_any (c : exn_class) (ds : list exn_class) : bool :=
  existsb (issubclass c) ds.

End Exn.
Export Exn.

(** ** The probe coroutine *)

Module Probe.

Inductive PortState : Set := closed | open.

#[export] Instance PortState_eq_dec : EqDecision PortState.
Proof. solve_decision. Defined.

(** The tuple [(ip_address, port, port_state)] returned by a probe. *)
Definition ProbeOutcome : Type := string * Z * PortState.

(** What the network does with one connection attempt: the handshake
    completes after some time, it fails after some time with an exception, or
    nothing ever comes back. *)
Inductive attempt : Type :=
  | Connects (after : Q)
  | Fails (after : Q) (e : exn_class)
  | Hangs.

Definition network : Type := string → Z → attempt.

(** Calls on the streams interface of asyncio. The frame of a probe records
    the calls its own code makes: opening a connection, writing to or
    reading from the stream pair it got, closing it. What the library does
    on sockets to serve [open_connection] (resolving the name, trying the
    addresses in turn, closing the socket of a failed try) is the network's
    side, summed up in [attempt], and is not recorded. *)
Inductive io_event : Type :=
  | EvOpenConnection (ip : string) (port : Z)
  | EvWrite
  | EvRead
  | EvClose.

(** The frame of one running coroutine: its local variable, the stream
    calls made so far and the time spent suspended. *)
Record frame : Type := mkFrame {
  port_state : option PortState;
  io_trace : list io_event;
  elapsed : Q
}.

Definition new_frame : frame :=
  {| port_state := None; io_trace := []; elapsed := 0%Q |}.

Inductive result (A : Type) : Type :=
  | Returned (a : A)
  | Raised (e : exn_class).
Arguments Returned {A} a.
Arguments Raised {A} e.

(** Coroutine bodies: the frame survives a raise. *)
Definition coro (A : Type) : Type := frame → result A * frame.

#[export] Instance coro_ret : MRet coro := λ A a fr, (Returned a, fr).

#[export] Instance coro_bind : MBind coro := λ A B k m fr,
  match m fr with
  | (Returned a, fr') => k a fr'
  | (Raised e, fr') => (Raised e, fr')
  end.

(** [port_state = v] *)
Definition assign_port_state (v : PortState) : coro unit :=
  λ fr, (Returned tt,
         {| port_state := Some v; io_trace := io_trace fr;
            elapsed := elapsed fr |}).

(** Reading the local variable; unbound locals raise. *)
Definition read_port_state : coro PortState :=
  λ fr, match port_state fr with
        | Some v => (Returned v, fr)
        | None => (Raised UnboundLocalError, fr)
        end.

(** The frame after making stream calls and after a suspension. *)
Definition issue (evs : list io_event) (fr : frame) : frame :=
  {| port_state := port_state fr; io_trace := io_trace fr ++ evs;
     elapsed := elapsed fr |}.

Definition suspend (d : Q) (fr : frame) : frame :=
  {| port_state := port_state fr; io_trace := io_trace fr;
     elapsed := (elapsed fr + d)%Q |}.

(** An awaitable that has not been awaited yet: what it will do and when.
    [None] as the delay means it never resolves. *)
Record awaitable (A : Type) : Type := mkAwaitable {
  aw_events : list io_event;
  aw_delay : option Q;
  aw_result : result A
}.
Arguments mkAwaitable {A} _ _ _.
Arguments aw_events {A} _.
Arguments aw_delay {A} _.
Arguments aw_result {A} _.

(** The (reader, writer) pair of an established stream. *)
Inductive streams : Set := StreamPair.

(** [asyncio.open_connection(ip_address, port, loop=loop)]: the call is
    recorded; when and how it ends is the network's answer. *)
Definition open_connection (net : network) (ip : string) (port : Z)
  : awaitable streams :=
  match net ip port with
  | Connects d =>
      mkAwaitable [EvOpenConnection ip port] (Some d) (Returned StreamPair)
  | Fails d e =>
      mkAwaitable [EvOpenConnection ip port] (Some d) (Raised e)
  | Hangs =>
      mkAwaitable [EvOpenConnection ip port] None (Raised CancelledError)
  end.

(** [await asyncio.wait_for(aw, timeout)]: the result of [aw] when it
    resolves no later than the deadline, otherwise [aw] is cancelled and
    [asyncio.TimeoutError] is raised at the deadline. *)
Definition wait_for {A} (aw : awaitable A) (timeout : Q) : coro A :=
  λ fr,
    let fr1 := issue (aw_events aw) fr in
    match aw_delay aw with
    | Some d =>
        if Qle_bool d timeout
        then (aw_result aw, suspend d fr1)
        else (Raised AsyncioTimeoutError, suspend timeout fr1)
    | None => (Raised AsyncioTimeoutError, suspend timeout fr1)
    end.

(** [with contextlib.suppress(classes...): body]: an exception raised by the
    body is swallowed exactly when its class is a subclass of one of
    [classes]; execution then resumes after the block. *)
Definition suppress (classes : list exn_class) (body : coro unit) : coro unit :=
  λ fr, match body fr with
        | (Returned tt, fr') => (Returned tt, fr')
        | (Raised e, fr') =>
            if issubclass_any e classes then (Returned tt, fr')
            else (Raised e, fr')
        end.

(** The literal [timeout=3.0]. *)
Definition probe_timeout : Q := 3.

(** [AsyncTCPScanner.__tcp_connection]. *)
Definition tcp_connection (net : network) (ip_address : string) (port : Z)
  : coro ProbeOutcome :=
  suppress [ConnectionRefusedError; AsyncioTimeoutError; OSError]
    (assign_port_state closed ;;
     _ ← wait_for (open_connection net ip_address port) probe_timeout;
     assign_port_state open) ;;
  st ← read_port_state;
  mret (ip_address, port, st).

(** Running a coroutine to completion in a fresh frame. *)
Definition run {A} (m : coro A) : result A * frame := m new_frame.

Definition probe (net : network) (ip : string) (port : Z)
  : result ProbeOutcome * frame :=
  run (tcp_connection net ip port).

(** The ways one attempt can go, seen from outside the probe. *)

(** The attempt resolves, well or badly, no later than [t] seconds. *)
Definition resolves_within (t : Q) (a : attempt) : Prop :=
  match a with
  | Connects d | Fails d _ => (d <= t)%Q
  | Hangs => False
  end.

(** The handshake completes within the three seconds allowed. *)
Definition handshake_in_time (a : attempt) : bool :=
  match a with
  | Connects d => Qle_bool d 3
  | _ => false
  end.

(** Nothing comes back within the three seconds allowed. *)
Definition times_out (a : attempt) : bool :=
  match a with
  | Connects d | Fails d _ => negb (Qle_bool d 3)
  | Hangs => true
  end.

(** The attempt is refused, raises a timeout of its own, or fails with an
    error of the operating system or the network. *)
Definition os_level_error (a : attempt) : bool :=
  match a with
  | Fails _ e =>
      bool_decide (e = ConnectionRefusedError)
      || bool_decide (e = AsyncioTimeoutError)
      || issubclass e OSError
  | _ => false
  end.

Definition network_failure (a : attempt) : bool :=
  times_out a || os_level_error a.

(** The attempt succeeds, times out, or errors at the network level. *)
Definition conclusive (a : attempt) : bool :=
  handshake_in_time a || network_failure a.

(** The state a (target, port) pair is reported in. *)
Definition state_of (nw : network) (ip : string) (port : Z) : PortState :=
  if handshake_in_time (nw ip port) then open else closed.

Definition outcome_of (nw : network) (pr : string * Z) : ProbeOutcome :=
  (pr.1, pr.2, state_of nw pr.1 pr.2).

(** A probe that closes the connection it established (it calls [close] on
    the stream pair), and one that neither writes to nor reads from it. *)
Definition closes_connection (fr : frame) : Prop := EvClose ∈ io_trace fr.

Definition exchanges_no_data (fr : frame) : Prop :=
  (EvWrite ∉ io_trace fr) ∧ (EvRead ∉ io_trace fr).

End Probe.
Export Probe.

(** ** Tasks and [asyncio.gather] *)

Module Loop.

(** A task made by [asyncio.create_task]: all tasks of a scan start together
    when [gather] first yields to the loop, so a task is settled by what its
    coroutine produces and by when it finishes. *)
Record task (A : Type) : Type := mkTask {
  task_result : result A;
  finished_at : Q;
  task_io : list io_event
}.
Arguments mkTask {A} _ _ _.
Arguments task_result {A} _.
Arguments finished_at {A} _.
Arguments task_io {A} _.

Definition create_task {A} (m : coro A) : task A :=
  let '(r, fr) := run m in mkTask r (elapsed fr) (io_trace fr).

(** The loop completes tasks by increasing finishing time; tasks finishing
    together complete in the order they were created. *)
Fixpoint insert_by_time (x : nat * Q) (l : list (nat * Q)) : list (nat * Q) :=
  match l with
  | [] => [x]
  | y :: l' =>
      if Qle_bool (x.2) (y.2) then x :: y :: l' else y :: insert_by_time x l'
  end.

Definition sort_by_time (l : list (nat * Q)) : list (nat * Q) :=
  foldr insert_by_time [] l.

Definition completion_order {A} (children : list (task A)) : list nat :=
  (sort_by_time (imap (λ i t, (i, finished_at t)) children)).*1.

(** The results of the children, read in the order of [children], as the
    last done-callback of [gather] does. *)
Fixpoint collect_results {A} (children : list (task A)) : result (list A) :=
  match children with
  | [] => Returned []
  | t :: rest =>
      match task_result t with
      | Returned a =>
          match collect_results rest with
          | Returned l => Returned (a :: l)
          | Raised e => Raised e
          end
      | Raised e => Raised e
      end
  end.

(** The done-callbacks of [gather] (with [return_exceptions=False]), run in
    completion order: the first child found with an exception settles the
    outer future with it; the callback that brings [nfinished] to the number
    of children settles it with the collected results. [None]: not settled. *)
Fixpoint done_callbacks {A} (children : list (task A)) (order : list nat)
    (nfinished : nat) : option (result (list A)) :=
  match order with
  | [] => None
  | i :: order' =>
      match children !! i with
      | None => done_callbacks children order' nfinished
      | Some fut =>
          let nfinished := S nfinished in
          match task_result fut with
          | Raised exc => Some (Raised exc)
          | Returned _ =>
              if decide (nfinished = length children)
              then Some (collect_results children)
              else done_callbacks children order' nfinished
          end
      end
  end.

(** [await asyncio.gather] on the unpacked [children]; [None] when the
    outer future is never settled. With no children the outer future is
    created already settled with the empty list. *)
Definition gather {A} (children : list (task A)) : option (result (list A)) :=
  match children with
  | [] => Some (Returned [])
  | _ => done_callbacks children (completion_order children) 0
  end.

(** The results listed in the order in which the tasks completed. *)
Definition in_completion_order {A} (children : list (task A))
  : list (result A) :=
  omap (λ i, task_result <$> children !! i) (completion_order children).

End Loop.
Export Loop.

(** ** The scanner class *)

Module Scanner.

(** A Python iterable handed to the constructor: a sequence (list, tuple)
    can be iterated again and again, an iterator (generator) only yields what
    has not been taken from it yet. *)
Inductive iterable (A : Type) : Type :=
  | Sequence (items : list A)
  | Iterator (remaining : list A).
Arguments Sequence {A} items.
Arguments Iterator {A} remaining.

(** A complete [for x in it] loop: the elements visited, and the object
    afterwards. *)
Definition iterate {A} (it : iterable A) : list A * iterable A :=
  match it with
  | Sequence l => (l, Sequence l)
  | Iterator l => (l, Iterator [])
  end.

(** The elements an iterable would still yield. *)
Definition contents {A} (it : iterable A) : list A := (iterate it).1.

(** The five arguments of [observer.update]. *)
Record notification : Type := mkNotification {
  n_target_addresses : iterable string;
  n_ports : iterable Z;
  n_scan_results : option (list ProbeOutcome);
  n_start_time : option Q;
  n_end_time : option Q
}.

(** An observer is known to the engine by its identity and by whether its
    [update] raises on a given notification. *)
Record Observer : Type := mkObserver {
  obs_id : nat;
  update : notification → option exn_class
}.

Record AsyncTCPScanner : Type := mkScanner {
  target_addresses : iterable string;
  ports : iterable Z;
  start_time : option Q;
  end_time : option Q;
  scan_results : option (list ProbeOutcome);
  observers : list Observer
}.

(** What the engine touches outside itself: the network, the wall clock
    (the [n]-th reading of [time.time()]) and the calls made to observers. *)
Record World : Type := mkWorld {
  net : network;
  clock : nat → Q;
  ticks : nat;
  delivered : list (nat * notification)
}.

Definition state : Type := World * AsyncTCPScanner.

(** Methods: [None] stands for a call that never returns. *)
Definition method (A : Type) : Type := state → option (result A * state).

#[export] Instance method_ret : MRet method := λ A a st,
  Some (Returned a, st).

#[export] Instance method_bind : MBind method := λ A B k m st,
  match m st with
  | Some (Returned a, st') => k a st'
  | Some (Raised e, st') => Some (Raised e, st')
  | None => None
  end.

(** [AsyncTCPScanner.__init__] *)
Definition init (target_addresses : iterable string) (ports : iterable Z)
  : AsyncTCPScanner :=
  {| target_addresses := target_addresses;
     ports := ports;
     start_time := None;
     end_time := None;
     scan_results := None;
     observers := [] |}.

(** [AsyncTCPScanner.register] *)
Definition register (observer : Observer) (self : AsyncTCPScanner)
  : AsyncTCPScanner :=
  {| target_addresses := target_addresses self;
     ports := ports self;
     start_time := start_time self;
     end_time := end_time self;
     scan_results := scan_results self;
     observers := observers self ++ [observer] |}.

(** [time.time()] *)
Definition time_time : method Q := λ '(w, self),
  Some (Returned (clock w (ticks w)),
        ({| net := net w; clock := clock w; ticks := S (ticks w);
            delivered := delivered w |}, self)).

Definition set_start_time (t : Q) : method unit := λ '(w, self),
  Some (Returned tt,
        (w, {| target_addresses := target_addresses self;
               ports := ports self;
               start_time := Some t;
               end_time := end_time self;
               scan_results := scan_results self;
               observers := observers self |})).

Definition set_end_time (t : Q) : method unit := λ '(w, self),
  Some (Returned tt,
        (w, {| target_addresses := target_addresses self;
               ports := ports self;
               start_time := start_time self;
               end_time := Some t;
               scan_results := scan_results self;
               observers := observers self |})).

Definition set_scan_results (rs : list ProbeOutcome) : method unit :=
  λ '(w, self),
  Some (Returned tt,
        (w, {| target_addresses := target_addresses self;
               ports := ports self;
               start_time := start_time self;
               end_time := end_time self;
               scan_results := Some rs;
               observers := observers self |})).

(** The arguments [__notify_all] passes: the engine's current attributes. *)
Definition notification_of (self : AsyncTCPScanner) : notification :=
  {| n_target_addresses := target_addresses self;
     n_ports := ports self;
     n_scan_results := scan_results self;
     n_start_time := start_time self;
     n_end_time := end_time self |}.

(** One call [observer.update(...)]. *)
Definition call_update (observer : Observer) : method unit := λ '(w, self),
  let args := notification_of self in
  let w' := {| net := net w; clock := clock w; ticks := ticks w;
               delivered := delivered w ++ [(obs_id observer, args)] |} in
  match update observer args with
  | Some e => Some (Raised e, (w', self))
  | None => Some (Returned tt, (w', self))
  end.

(** [AsyncTCPScanner.__notify_all] *)
Fixpoint notify_each (obs : list Observer) : method unit :=
  match obs with
  | [] => mret tt
  | observer :: rest => call_update observer ;; notify_each rest
  end.

Definition notify_all : method unit := λ st, notify_each (observers st.2) st.

(** The [for] clauses of the generator expression of [__scan_targets],
    [for port in self.ports for address in self.target_addresses]: the
    (address, port) bindings in the order they are made, the inner iterable
    being looked up and iterated afresh for every port. *)
Fixpoint bindings (ps : list Z) (targets : iterable string)
  : list (string * Z) * iterable string :=
  match ps with
  | [] => ([], targets)
  | port :: ps' =>
      let '(addresses, targets') := iterate targets in
      let '(rest, targets'') := bindings ps' targets' in
      (map (λ address, (address, port)) addresses ++ rest, targets'')
  end.

(** The element expression of the generator, one task per binding. *)
Definition scan_task (nw : network) (pr : string * Z) : task ProbeOutcome :=
  create_task (tcp_connection nw pr.1 pr.2).

Definition scans (nw : network) (ps : list Z) (targets : iterable string)
  : list (task ProbeOutcome) * iterable string :=
  let '(prs, targets') := bindings ps targets in
  (scan_task nw <$> prs, targets').

(** [AsyncTCPScanner.__scan_targets], run by [asyncio.run]. *)
Definition scan_targets : method (list ProbeOutcome) := λ '(w, self),
  let '(ps, ports') := iterate (ports self) in
  let '(children, targets') := scans (net w) ps (target_addresses self) in
  let self' := {| target_addresses := targets';
                  ports := ports';
                  start_time := start_time self;
                  end_time := end_time self;
                  scan_results := scan_results self;
                  observers := observers self |} in
  match gather children with
  | Some r => Some (r, (w, self'))
  | None => None
  end.

(** [AsyncTCPScanner.execute] *)
Definition execute : method unit :=
  t ← time_time;
  set_start_time t ;;
  rs ← scan_targets;
  set_scan_results rs ;;
  t ← time_time;
  set_end_time t ;;
  notify_all.

(** The (target, port) pair an outcome is about. *)
Definition pair_of (o : ProbeOutcome) : string * Z := o.1.

(** The pairs in submission order: outer loop over ports, inner loop over
    targets. *)
Definition submitted (targets : list string) (ps : list Z)
  : list (string * Z) :=
  port ← ps; address ← targets; [(address, port)].

(** The bindings one call of [execute] would make. *)
Definition visited (self : AsyncTCPScanner) : list (string * Z) :=
  (bindings (contents (ports self)) (target_addresses self)).1.

(** The outcomes of a scan listed in the order the tasks completed. *)
Definition completion_listing (nw : network) (prs : list (string * Z))
  : list (result ProbeOutcome) :=
  in_completion_order (scan_task nw <$> prs).

(** The entry an observer's call leaves in the world. *)
Definition call_of (args : notification) (o : Observer)
  : nat * notification := (obs_id o, args).

Definition with_calls (w : World) (calls : list (nat * notification))
  : World :=
  {| net := net w; clock := clock w; ticks := ticks w;
     delivered := delivered w ++ calls |}.


(** Every attempt a scan would make succeeds, times out or fails at the
    network level. *)
Definition conclusive_for (nw : network) (prs : list (string * Z)) : Prop :=
  Forall (λ pr, conclusive (nw pr.1 pr.2) = true) prs.

(** An observer whose [update] never raises. *)
Definition reliable (o : Observer) : Prop := ∀ args, update o args = None.

(** The state in which [execute] starts notifying, when the scan returns:
    two clock readings taken, the iterables as the generator left them, and
    one outcome per binding in the order the bindings were made. *)
Definition scanned (st : state) : state :=
  let made := bindings (contents (ports st.2)) (target_addresses st.2) in
  ({| net := net st.1; clock := clock st.1; ticks := S (S (ticks st.1));
      delivered := delivered st.1 |},
   {| target_addresses := made.2;
      ports := (iterate (ports st.2)).2;
      start_time := Some (clock st.1 (ticks st.1));
      end_time := Some (clock st.1 (S (ticks st.1)));
      scan_results := Some (outcome_of (net st.1) <$> made.1);
      observers := observers st.2 |}).

End Scanner.
Export Scanner.

(** ** The command-line helper [parse_ports] *)

Module Ports.

(** [s.split(sep)] with a one-character separator: never empty, and the
    empty string splits into one empty field. *)
Fixpoint split (sep : ascii) (s : string) : list string :=
  match s with
  | EmptyString => [EmptyString]
  | String c s' =>
      if Ascii.eqb c sep then EmptyString :: split sep s'
      else match split sep s' with
           | field :: fields => String c field :: fields
           | [] => [String c EmptyString]
           end
  end.

(** ASCII white space as [int] strips it: TAB to CR, and space. *)
Definition is_space (c : ascii) : bool :=
  let n := nat_of_ascii c in
  ((9 <=? n)%nat && (n <=? 13)%nat) || (n =? 32)%nat.

Definition digit_value (c : ascii) : option Z :=
  let n := Z.of_nat (nat_of_ascii c) in
  if (48 <=? n) && (n <=? 57) then Some (n - 48) else None.

Fixpoint lstrip (s : string) : string :=
  match s with
  | EmptyString => EmptyString
  | String c s' => if is_space c then lstrip s' else s
  end.

Fixpoint rstrip (s : string) : string :=
  match s with
  | EmptyString => EmptyString
  | String c s' =>
      match rstrip s' with
      | EmptyString => if is_space c then EmptyString else String c EmptyString
      | r => String c r
      end
  end.

Definition strip (s : string) : string := rstrip (lstrip s).

(** Decimal digits, single underscores allowed between two digits;
    [after_digit] tells whether the previous character was a digit. *)
Fixpoint int_digits (acc : Z) (after_digit : bool) (s : string) : option Z :=
  match s with
  | EmptyString => if after_digit then Some acc else None
  | String c s' =>
      if Ascii.eqb c "_"
      then (if after_digit then int_digits acc false s' else None)
      else match digit_value c with
           | Some d => int_digits (10 * acc + d) true s'
           | None => None
           end
  end.

(** [int(s)] in base ten on an ASCII string; [None] is [ValueError]. *)
Definition int (s : string) : option Z :=
  match strip s with
  | EmptyString => None
  | String c digits =>
      if Ascii.eqb c "+" then int_digits 0 false digits
      else if Ascii.eqb c "-" then Z.opp <$> int_digits 0 false digits
      else int_digits 0 false (String c digits)
  end.

(** [range(start, stop)] *)
Definition range (start stop : Z) : list Z := seqZ start (stop - start).

(** [start, end = (int(port) for port in port.split('-'))]: anything but
    two fields that both convert is a [ValueError]. *)
Definition unpack_bounds (fields : list string) : option (Z * Z) :=
  match fields with
  | [a; b] =>
      match int a, int b with
      | Some start, Some stop => Some (start, stop)
      | _, _ => None
      end
  | _ => None
  end.

(** What a generator gives when it is run to its end: the values yielded
    and the exception that ended it, if one did. *)
Fixpoint parse_fields (fields : list string) : list Z * option exn_class :=
  match fields with
  | [] => ([], None)
  | port :: rest =>
      match int port with
      | Some n =>
          let '(more, exc) := parse_fields rest in (n :: more, exc)
      | None =>
          match unpack_bounds (split "-" port) with
          | Some (start, stop) =>
              let '(more, exc) := parse_fields rest in
              (range start (stop + 1) ++ more, exc)
          | None => ([], Some ValueError)
          end
      end
  end.

(** [parse_ports] *)
Definition parse_ports (ports : string) : list Z * option exn_class :=
  parse_fields (split "," ports).

(** [str(n)] for a natural number. *)
Definition str (n : nat) : string := NilEmpty.string_of_uint (Nat.to_uint n).

(** The entries of a well-formed port list: a port number, or two port
    numbers around a dash. *)
Inductive port_item : Set :=
  | Single (n : nat)
  | Span (first last : nat).

Definition render_item (it : port_item) : string :=
  match it with
  | Single n => str n
  | Span a b => str a +:+ String "-" (str b)
  end.

Definition render (items : list port_item) : string :=
  String.concat "," (render_item <$> items).

(** The ports an entry stands for, both ends of a span included. *)
Definition expand (it : port_item) : list Z :=
  match it with
  | Single n => [Z.of_nat n]
  | Span a b => Z.of_nat <$> seq a (S b - a)
  end.

(** Every character of a string passes a test. *)
Fixpoint chars_all (P : ascii → bool) (s : string) : bool :=
  match s with
  | EmptyString => true
  | String c s' => P c && chars_all P s'
  end.

Definition is_digit (c : ascii) : bool :=
  match digit_value c with Some _ => true | None => false end.

Definition is_not (sep : ascii) (c : ascii) : bool := negb (Ascii.eqb c sep).

End Ports.
Export Ports.


(** ** Concrete scenarios *)

Module Scenario.

(** Hosts with a listener on port 80, a filtered port 81 that never
    answers and nothing listening anywhere else; the name ["a..b"] has an
    empty label, which the name encoder rejects before any connect. *)
Definition lan : network := λ ip port,
  if bool_decide (ip = "a..b") then Fails 0 UnicodeError
  else if bool_decide (port = 80) then Connects (1 # 1000)
  else if bool_decide (port = 81) then Hangs
  else Fails (1 # 1000) ConnectionRefusedError.

Definition wall_clock : nat → Q := λ n, inject_Z (100 + Z.of_nat n).

Definition world0 : World :=
  {| net := lan; clock := wall_clock; ticks := 0; delivered := [] |}.

Definition printer : Observer := {| obs_id := 1; update := λ _, None |}.

Definition logger : Observer := {| obs_id := 3; update := λ _, None |}.

(** One host, the filtered port submitted before the listening one. *)
Definition slow_then_fast : AsyncTCPScanner :=
  init (Sequence ["10.0.0.7"]) (Sequence [81; 80]).

(** Two hosts and two ports, with the same observer registered twice. *)
Definition two_by_two : AsyncTCPScanner :=
  register printer
    (register printer (init (Sequence ["10.0.0.7"; "10.0.0.8"])
                            (Sequence [80; 1]))).

(** The ports given as a generator, as the command line does. *)
Definition generator_ports : AsyncTCPScanner :=
  init (Sequence ["10.0.0.7"]) (Iterator [80; 1]).

Definition generator_targets : AsyncTCPScanner :=
  init (Iterator ["10.0.0.7"; "10.0.0.8"]) (Sequence [80; 1]).


Definition broken : Observer :=
  {| obs_id := 2; update := λ _, Some TypeError |}.

End Scenario.

(** ** The reporting observer [ScanToScreen] *)

Module Screen.







Section Formats.

(** [time.ctime] and the float format [.3f] belong to the interpreter;
    the report is built over whatever text they give. *)
Variable ctime : Q → string.
Variable format_3f : Q → string.








End Formats.



End Screen.
Export Screen.

(** * Properties *)

(** ** The probe *)

Section ProbeFacts.

Context (nw : network) (ip : string) (port : Z).

Lemma probe_unfold :
  probe nw ip port =
    match nw ip port with
    | Connects d =>
        if Qle_bool d 3
        then (Returned (ip, port, open),
              mkFrame (Some open) [EvOpenConnection ip port] (0 + d))
        else (Returned (ip, port, closed),
              mkFrame (Some closed) [EvOpenConnection ip port] (0 + 3))
    | Fails d e =>
        if Qle_bool d 3
        then if issubclass_any e
                  [ConnectionRefusedError; AsyncioTimeoutError; OSError]
             then (Returned (ip, port, closed),
                   mkFrame (Some closed) [EvOpenConnection ip port] (0 + d))
             else (Raised e,
                   mkFrame (Some closed) [EvOpenConnection ip port] (0 + d))
        else (Returned (ip, port, closed),
              mkFrame (Some closed) [EvOpenConnection ip port] (0 + 3))
    | Hangs =>
        (Returned (ip, port, closed),
         mkFrame (Some closed) [EvOpenConnection ip port] (0 + 3))
    end.
Proof.
  unfold probe, run, tcp_connection, open_connection, probe_timeout.
  unfold mbind, coro_bind, mret, coro_ret, suppress, wait_for.
  destruct (nw ip port) as [d|d e|]; cbn.
  - destruct (Qle_bool d 3); reflexivity.
  - destruct (Qle_bool d 3); cbn; [|reflexivity].
    destruct e; reflexivity.
  - reflexivity.
Qed.

Lemma os_level_error_suppressed d e :
  os_level_error (Fails d e) = true →
  issubclass_any e [ConnectionRefusedError; AsyncioTimeoutError; OSError]
  = true.
Proof. destruct e; cbn; intros H; try reflexivity; discriminate H. Qed.

Lemma probe_conclusive :
  conclusive (nw ip port) = true →
  (probe nw ip port).1 = Returned (outcome_of nw (ip, port)).
Proof.
  rewrite probe_unfold.
  unfold conclusive, network_failure, outcome_of, state_of. cbn [fst snd].
  destruct (nw ip port) as [d|d e|]; cbn [handshake_in_time times_out].
  - destruct (Qle_bool d 3); reflexivity.
  - destruct (Qle_bool d 3); cbn [negb orb]; [|reflexivity].
    intros H. rewrite (os_level_error_suppressed _ _ H). reflexivity.
  - reflexivity.
Qed.

Lemma probe_finishes : ∃ r fr, probe nw ip port = (r, fr).
Proof. destruct (probe nw ip port) as [r fr]. eauto. Qed.

End ProbeFacts.

(** Only the three suppressed classes and their subclasses are swallowed. *)
Example probe_unicode_error_escapes :
  (probe Scenario.lan "a..b" 80).1 = Raised UnicodeError.
Proof. reflexivity. Qed.

Example subclasses_of_OSError :
  issubclass ConnectionRefusedError OSError = true
  ∧ issubclass GaiError OSError = true
  ∧ issubclass AsyncioTimeoutError OSError = false
  ∧ issubclass CancelledError Exception = false.
Proof. repeat split. Qed.

(** C2: when the connection attempt is refused, times out or fails with any
    other error of the operating system or the network, the probe returns
    [(address, port, closed)] and no exception leaves it. *)
Theorem probe_failure_is_closed (nw : network) (ip : string) (port : Z) :
  network_failure (nw ip port) = true →
  (probe nw ip port).1 = Returned (ip, port, closed)
  ∧ ∀ e, (probe nw ip port).1 ≠ Raised e.
Proof.
  intros Hfail.
  assert (Hc : conclusive (nw ip port) = true).
  { unfold conclusive. rewrite Hfail. apply orb_true_r. }
  pose proof (probe_conclusive nw ip port Hc) as Hp.
  assert (Hs : state_of nw ip port = closed).
  { unfold state_of. revert Hfail. unfold network_failure.
    destruct (nw ip port) as [d|d e|]; cbn; [|reflexivity..].
    destruct (Qle_bool d 3); [discriminate|reflexivity]. }
  unfold outcome_of in Hp. cbn [fst snd] in Hp. rewrite Hs in Hp.
  split; [exact Hp|]. intros e He. rewrite Hp in He. discriminate He.
Qed.

Lemma probe_failure_is_closed_witness :
  network_failure (Scenario.lan "127.0.0.1" 1) = true
  ∧ (probe Scenario.lan "127.0.0.1" 1).1 = Returned ("127.0.0.1", 1, closed).
Proof.
  split; [reflexivity|].
  apply (probe_failure_is_closed Scenario.lan "127.0.0.1" 1). reflexivity.
Defined.

(** C3: the connection attempt is awaited under the fixed timeout of 3.0
    seconds; a probe whose attempt does not resolve within 3.0 seconds
    reports [closed], and it does so at the deadline instead of hanging. *)
Theorem probe_timeout_is_closed (nw : network) (ip : string) (port : Z) :
  ¬ resolves_within 3 (nw ip port) →
  probe_timeout = 3%Q
  ∧ (probe nw ip port).1 = Returned (ip, port, closed)
  ∧ (elapsed (probe nw ip port).2 == 3)%Q.
Proof.
  intros Hslow. split; [reflexivity|].
  rewrite probe_unfold.
  destruct (nw ip port) as [d|d e|]; cbn in Hslow.
  - destruct (Qle_bool d 3) eqn:Hd.
    + exfalso. apply Hslow. by apply Qle_bool_iff.
    + split; [reflexivity|]. cbn. apply Qplus_0_l.
  - destruct (Qle_bool d 3) eqn:Hd.
    + exfalso. apply Hslow. by apply Qle_bool_iff.
    + split; [reflexivity|]. cbn. apply Qplus_0_l.
  - split; [reflexivity|]. cbn. apply Qplus_0_l.
Qed.

Lemma probe_timeout_is_closed_witness :
  (probe Scenario.lan "10.0.0.7" 81).1 = Returned ("10.0.0.7", 81, closed)
  ∧ (elapsed (probe Scenario.lan "10.0.0.7" 81).2 == 3)%Q.
Proof.
  apply (probe_timeout_is_closed Scenario.lan "10.0.0.7" 81).
  cbn. intros [].
Defined.

(** C4 as stated fails: on a completed handshake the probe reports [open]
    and exchanges no data, but it never closes the connection. *)
Lemma probe_open_not_closed_counterexample :
  handshake_in_time (Scenario.lan "127.0.0.1" 80) = true
  ∧ ¬ ((probe Scenario.lan "127.0.0.1" 80).1
         = Returned ("127.0.0.1", 80, open)
       ∧ closes_connection (probe Scenario.lan "127.0.0.1" 80).2
       ∧ exchanges_no_data (probe Scenario.lan "127.0.0.1" 80).2).
Proof.
  split; [reflexivity|].
  intros (_ & Hclose & _). unfold closes_connection in Hclose.
  rewrite probe_unfold in Hclose. cbn in Hclose.
  apply list_elem_of_singleton in Hclose. discriminate Hclose.
Qed.

(** C4, amended: on a handshake completed within the timeout the probe
    reports [open], sending and reading no data on the connection; it
    does not close the established connection before returning. *)
Theorem probe_handshake_is_open (nw : network) (ip : string) (port : Z) :
  handshake_in_time (nw ip port) = true →
  (probe nw ip port).1 = Returned (ip, port, open)
  ∧ exchanges_no_data (probe nw ip port).2
  ∧ ¬ closes_connection (probe nw ip port).2.
Proof.
  intros Hopen. unfold exchanges_no_data, closes_connection.
  rewrite probe_unfold.
  destruct (nw ip port) as [d|d e|]; cbn in Hopen; try discriminate Hopen.
  rewrite Hopen. cbn.
  repeat split; try reflexivity;
    intros H%list_elem_of_singleton; discriminate H.
Qed.

Lemma probe_handshake_is_open_witness :
  (probe Scenario.lan "127.0.0.1" 80).1 = Returned ("127.0.0.1", 80, open)
  ∧ ¬ closes_connection (probe Scenario.lan "127.0.0.1" 80).2.
Proof.
  destruct (probe_handshake_is_open Scenario.lan "127.0.0.1" 80)
    as (H1 & _ & H2).
  - reflexivity.
  - split; [exact H1|exact H2].
Defined.

(** ** The event loop *)

Section LoopFacts.

Context {A : Type}.
Implicit Types (children : list (task A)) (order : list nat).

Lemma insert_by_time_perm x l : insert_by_time x l ≡ₚ x :: l.
Proof.
  induction l as [|y l IH]; cbn; [done|].
  destruct (Qle_bool _ _); [done|].
  rewrite IH. apply Permutation_swap.
Qed.

Lemma sort_by_time_perm l : sort_by_time l ≡ₚ l.
Proof.
  induction l as [|x l IH]; cbn; [done|].
  rewrite insert_by_time_perm. by rewrite IH.
Qed.

Lemma completion_order_perm children :
  completion_order children ≡ₚ seq 0 (length children).
Proof.
  unfold completion_order. rewrite sort_by_time_perm.
  rewrite fmap_imap.
  rewrite (imap_ext _ (λ j _, j)) by done.
  rewrite imap_seq_0. by rewrite list_fmap_id.
Qed.

Lemma completion_order_length children :
  length (completion_order children) = length children.
Proof. by rewrite completion_order_perm, length_seq. Qed.

Lemma completion_order_valid children :
  Forall (λ i, (i < length children)%nat) (completion_order children).
Proof.
  rewrite completion_order_perm. apply Forall_seq. intros j Hj. lia.
Qed.

Lemma collect_results_fmap children vals :
  task_result <$> children = Returned <$> vals →
  collect_results children = Returned vals.
Proof.
  revert vals. induction children as [|t children IH]; intros [|v vals] H;
    cbn in H; try discriminate H; [done|].
  injection H as Ht Hrest. cbn. rewrite Ht, (IH _ Hrest). done.
Qed.

(** With every child returning, the outer future is settled by the callback
    that brings the count to the number of children, and not before. *)
Lemma done_callbacks_returned children vals order k :
  task_result <$> children = Returned <$> vals →
  Forall (λ i, (i < length children)%nat) order →
  (k < length children)%nat →
  done_callbacks children order k =
    if decide (length children - k ≤ length order)%nat
    then Some (Returned vals) else None.
Proof.
  intros Hres. revert k.
  induction order as [|i order IH]; intros k Hvalid Hk; cbn.
  - destruct (decide _); [lia|done].
  - apply Forall_cons in Hvalid as [Hi Hvalid].
    destruct (lookup_lt_is_Some_2 _ _ Hi) as [fut Hfut]. rewrite Hfut.
    assert (∃ a, task_result fut = Returned a) as [a Ha].
    { assert ((task_result <$> children) !! i = Some (task_result fut)) as H
        by (by rewrite list_lookup_fmap, Hfut).
      rewrite Hres, list_lookup_fmap in H.
      destruct (vals !! i) as [a|]; [|discriminate H].
      exists a. by injection H. }
    rewrite Ha. destruct (decide (S k = length children)) as [Heq|Hne].
    + rewrite (collect_results_fmap _ _ Hres).
      destruct (decide _); [done|lia].
    + rewrite IH by (done || lia).
      destruct (decide _), (decide _); done || lia.
Qed.

(** [gather] hands back the values in the order of its arguments, however
    the children interleave. *)
Lemma gather_returned children vals :
  task_result <$> children = Returned <$> vals →
  gather children = Some (Returned vals).
Proof.
  intros Hres. unfold gather. destruct children as [|t children].
  - by destruct vals.
  - rewrite (done_callbacks_returned _ vals) by
      (done || apply completion_order_valid || (cbn; lia)).
    rewrite completion_order_length. destruct (decide _); [done|lia].
Qed.

End LoopFacts.

(** A child that raises settles [gather] with its exception. *)
Example gather_propagates :
  gather (scan_task Scenario.lan <$> [("10.0.0.7", 80); ("a..b", 80)])
  = Some (Raised UnicodeError).
Proof. reflexivity. Qed.

Example completion_order_by_time :
  completion_order
    (scan_task Scenario.lan <$> [("h", 81); ("h", 80); ("h", 1); ("g", 80)])
  = [1; 2; 3; 0]%nat.
Proof. reflexivity. Qed.

(** ** The scanner *)

Section ScannerFacts.

Implicit Types (w : World) (self : AsyncTCPScanner) (obs : list Observer).

Lemma bind_singleton {X Y} (f : X → Y) (l : list X) :
  (x ← l; [f x]) = f <$> l.
Proof. induction l as [|x l IH]; cbn; [done|]. by rewrite <- IH. Qed.

Lemma bindings_Sequence ps ts :
  bindings ps (Sequence ts) = (submitted ts ps, Sequence ts).
Proof.
  induction ps as [|p ps IH]; cbn; [done|].
  rewrite IH. unfold submitted. cbn. by rewrite bind_singleton.
Qed.

Lemma bindings_exhausted ps : bindings ps (Iterator []) = ([], Iterator []).
Proof. induction ps as [|p ps IH]; cbn; [done|]. by rewrite IH. Qed.

Lemma bindings_Iterator p ps ts :
  bindings (p :: ps) (Iterator ts)
  = ((λ address, (address, p)) <$> ts, Iterator []).
Proof. cbn. rewrite bindings_exhausted. by rewrite app_nil_r. Qed.

Lemma bindings_no_targets ps targets :
  contents targets = [] → (bindings ps targets).1 = [].
Proof.
  intros Hempty. destruct targets as [ts|ts]; cbn in Hempty; subst ts.
  - rewrite bindings_Sequence. cbn. unfold submitted.
    induction ps as [|p ps IH]; cbn; done.
  - by rewrite bindings_exhausted.
Qed.

Lemma task_result_scan_task nw pr :
  task_result (scan_task nw pr) = (probe nw pr.1 pr.2).1.
Proof.
  unfold scan_task, create_task, probe.
  by destruct (run (tcp_connection nw pr.1 pr.2)).
Qed.

Lemma scan_tasks_returned nw prs :
  conclusive_for nw prs →
  task_result <$> (scan_task nw <$> prs) = Returned <$> (outcome_of nw <$> prs).
Proof.
  induction 1 as [|[a p] prs Hc _ IH]; cbn; [done|].
  rewrite task_result_scan_task, IH. cbn [fst snd] in *.
  by rewrite (probe_conclusive _ _ _ Hc).
Qed.

(** [execute] up to the notification. *)
Lemma execute_scanned w self :
  conclusive_for (net w) (visited self) →
  execute (w, self) = notify_all (scanned (w, self)).
Proof.
  unfold visited. intros Hc.
  unfold execute, scanned, mbind, method_bind.
  unfold time_time, set_start_time, scan_targets, scans.
  unfold set_scan_results, set_end_time, notify_all.
  unfold contents in *. cbn [fst snd] in *.
  destruct (iterate (ports self)) as [ps ports'] eqn:Hit; cbn [fst snd] in *.
  destruct (bindings ps (target_addresses self)) as [prs targets'] eqn:Hb;
    cbn [fst snd] in *.
  cbn. rewrite Hit, Hb.
  rewrite (gather_returned _ _ (scan_tasks_returned _ _ Hc)).
  reflexivity.
Qed.


Lemma notify_each_raising pre o post e w self :
  Forall (λ o, update o (notification_of self) = None) pre →
  update o (notification_of self) = Some e →
  notify_each (pre ++ o :: post) (w, self)
  = Some (Raised e,
          (with_calls w (call_of (notification_of self) <$> pre ++ [o]),
           self)).
Proof.
  revert w. induction pre as [|o' pre IH]; intros w Hq Ho.
  - cbn. unfold mbind, method_bind, call_update. rewrite Ho. done.
  - apply Forall_cons in Hq as [Ho' Hq]. cbn.
    unfold mbind, method_bind, call_update. rewrite Ho'.
    rewrite IH by done. unfold with_calls; cbn.
    by rewrite <- app_assoc.
Qed.

Lemma notify_each_returns obs w self :
  ∃ r w', notify_each obs (w, self) = Some (r, (w', self)).
Proof.
  revert w. induction obs as [|o obs IH]; intros w; cbn.
  - by eexists _, _.
  - unfold mbind, method_bind, call_update.
    destruct (update o _); [by eexists _, _|]. apply IH.
Qed.

Lemma submitted_cons ts p ps :
  submitted ts (p :: ps) = ((λ a, (a, p)) <$> ts) ++ submitted ts ps.
Proof. unfold submitted. cbn. by rewrite bind_singleton. Qed.

Lemma list_prod_cons_r (ts : list string) p (ps : list Z) :
  list_prod ts (p :: ps) ≡ₚ ((λ a, (a, p)) <$> ts) ++ list_prod ts ps.
Proof.
  induction ts as [|a ts IH]; cbn; [done|].
  f_equiv. rewrite IH. rewrite !app_assoc. f_equiv.
  apply Permutation_app_comm.
Qed.

Lemma submitted_perm ts ps : submitted ts ps ≡ₚ list_prod ts ps.
Proof.
  induction ps as [|p ps IH].
  - unfold submitted; cbn. induction ts as [|a ts IHts]; cbn; done.
  - rewrite submitted_cons, list_prod_cons_r. by rewrite IH.
Qed.

Lemma submitted_length ts ps :
  length (submitted ts ps) = (length ts * length ps)%nat.
Proof.
  induction ps as [|p ps IH].
  - unfold submitted; cbn. lia.
  - rewrite submitted_cons, length_app, length_fmap, IH. cbn. lia.
Qed.

Lemma pair_of_outcome_of nw (prs : list (string * Z)) :
  pair_of <$> (outcome_of nw <$> prs) = prs.
Proof.
  induction prs as [|[a p] prs IH]; cbn; [done|]. by rewrite IH.
Qed.

Lemma reliable_quiet obs args :
  Forall reliable obs → Forall (λ o, update o args = None) obs.
Proof. intros H. eapply Forall_impl; [exact H|]. intros o Ho. apply Ho. Qed.

Lemma conclusive_for_nil nw : conclusive_for nw [].
Proof. apply Forall_nil_2. Qed.

Lemma visited_Sequence self ts ps :
  target_addresses self = Sequence ts → ports self = Sequence ps →
  visited self = submitted ts ps.
Proof.
  unfold visited, contents. intros -> ->. cbn.
  by rewrite bindings_Sequence.
Qed.

Lemma visited_empty self :
  contents (target_addresses self) = [] ∨ contents (ports self) = [] →
  visited self = [].
Proof.
  unfold visited. intros [Ht|Hp].
  - by apply bindings_no_targets.
  - by rewrite Hp.
Qed.

End ScannerFacts.

(** C1 as stated fails: a connection attempt can raise an exception that
    is not below one of the three suppressed classes (here the name
    ["a..b"] is rejected with [UnicodeError]); the probe lets it out,
    [execute] raises it, and no outcome is stored for any pair. *)
Lemma execute_covers_product_counterexample :
  execute (Scenario.world0,
           init (Sequence ["10.0.0.7"; "a..b"]) (Sequence [80]))
  = Some (Raised UnicodeError,
          (mkWorld Scenario.lan Scenario.wall_clock 1 [],
           mkScanner (Sequence ["10.0.0.7"; "a..b"]) (Sequence [80])
             (Some (Scenario.wall_clock 0)) None None []))
  ∧ ¬ (∃ r w' self' rs,
         execute (Scenario.world0,
                  init (Sequence ["10.0.0.7"; "a..b"]) (Sequence [80]))
           = Some (r, (w', self'))
         ∧ scan_results self' = Some rs
         ∧ length rs = 2%nat
         ∧ pair_of <$> rs ≡ₚ list_prod ["10.0.0.7"; "a..b"] [80]).
Proof.
  assert (Hex : execute (Scenario.world0,
                         init (Sequence ["10.0.0.7"; "a..b"]) (Sequence [80]))
                = Some (Raised UnicodeError,
                        (mkWorld Scenario.lan Scenario.wall_clock 1 [],
                         mkScanner (Sequence ["10.0.0.7"; "a..b"])
                           (Sequence [80])
                           (Some (Scenario.wall_clock 0)) None None [])))
    by reflexivity.
  split; [exact Hex|].
  intros (r & w' & self' & rs & Hrun & Hrs & _).
  rewrite Hex in Hrun. injection Hrun as _ _ <-. discriminate Hrs.
Qed.

(** C1, amended: with targets and ports given as sequences, and provided
    every connection attempt of the scan succeeds, times out or fails with
    an exception of one of the suppressed classes, [execute] stores one
    outcome per element of the Cartesian product: [|targets| * |ports|]
    entries whose (target, port) pairs are a rearrangement of the product,
    so that every pair occurs as often as the product has it. In particular
    this holds for non-empty sequences. *)
Theorem execute_covers_product w self ts ps :
  target_addresses self = Sequence ts →
  ports self = Sequence ps →
  conclusive_for (net w) (list_prod ts ps) →
  ∃ r w' self' rs,
    execute (w, self) = Some (r, (w', self'))
    ∧ scan_results self' = Some rs
    ∧ length rs = (length ts * length ps)%nat
    ∧ pair_of <$> rs ≡ₚ list_prod ts ps.
Proof.
  intros Ht Hp Hc.
  pose proof (visited_Sequence _ _ _ Ht Hp) as Hv.
  unfold conclusive_for in Hc. rewrite <- submitted_perm, <- Hv in Hc.
  rewrite (execute_scanned _ _ Hc). unfold notify_all.
  destruct (notify_each_returns (observers (scanned (w, self)).2)
              (scanned (w, self)).1 (scanned (w, self)).2) as (r & w' & Hn).
  exists r, w', (scanned (w, self)).2, (outcome_of (net w) <$> submitted ts ps).
  split; [by rewrite <- Hn; destruct (scanned (w, self))|].
  unfold scanned, contents; cbn. rewrite Ht, Hp; cbn.
  rewrite bindings_Sequence; cbn.
  split; [done|]. split.
  - by rewrite length_fmap, submitted_length.
  - by rewrite pair_of_outcome_of, submitted_perm.
Qed.

Lemma execute_covers_product_witness :
  ∃ r w' self' rs,
    execute (Scenario.world0, Scenario.two_by_two) = Some (r, (w', self'))
    ∧ scan_results self' = Some rs
    ∧ length rs = 4%nat
    ∧ pair_of <$> rs
      ≡ₚ list_prod ["10.0.0.7"; "10.0.0.8"] [80; 1].
Proof.
  apply (execute_covers_product Scenario.world0 Scenario.two_by_two
           ["10.0.0.7"; "10.0.0.8"] [80; 1]); [reflexivity..|].
  repeat constructor.
Defined.

(** C5 as stated fails: with the slow probe submitted first, the fast one
    completes first, yet the stored outcomes are not in completion order. *)
Lemma results_not_in_completion_order_counterexample :
  ∃ w' self' rs,
    execute (Scenario.world0, Scenario.slow_then_fast)
      = Some (Returned tt, (w', self'))
    ∧ scan_results self' = Some rs
    ∧ completion_listing Scenario.lan (visited Scenario.slow_then_fast)
      = [Returned ("10.0.0.7", 80, open); Returned ("10.0.0.7", 81, closed)]
    ∧ Returned <$> rs
      ≠ completion_listing Scenario.lan (visited Scenario.slow_then_fast).
Proof.
  exists (mkWorld Scenario.lan Scenario.wall_clock 2 []),
    (mkScanner (Sequence ["10.0.0.7"]) (Sequence [81; 80])
       (Some (Scenario.wall_clock 0)) (Some (Scenario.wall_clock 1))
       (Some [("10.0.0.7", 81, closed); ("10.0.0.7", 80, open)]) []),
    [("10.0.0.7", 81, closed); ("10.0.0.7", 80, open)].
  split; [reflexivity|]. split; [reflexivity|]. split; [reflexivity|].
  vm_compute. intros H. discriminate H.
Qed.

(** C5, amended: the outcome sequence stored by [execute] is in submission
    order (outer loop over ports, inner loop over targets), whatever the
    order in which the concurrent probes complete. *)
Theorem results_in_submission_order w self ts ps :
  target_addresses self = Sequence ts →
  ports self = Sequence ps →
  conclusive_for (net w) (submitted ts ps) →
  ∃ r w' self',
    execute (w, self) = Some (r, (w', self'))
    ∧ scan_results self' = Some (outcome_of (net w) <$> submitted ts ps).
Proof.
  intros Ht Hp Hc.
  pose proof (visited_Sequence _ _ _ Ht Hp) as Hv. rewrite <- Hv in Hc.
  rewrite (execute_scanned _ _ Hc). unfold notify_all.
  destruct (notify_each_returns (observers (scanned (w, self)).2)
              (scanned (w, self)).1 (scanned (w, self)).2) as (r & w' & Hn).
  exists r, w', (scanned (w, self)).2.
  split; [by rewrite <- Hn; destruct (scanned (w, self))|].
  unfold scanned, contents; cbn. rewrite Ht, Hp; cbn.
  by rewrite bindings_Sequence.
Qed.

Lemma results_in_submission_order_witness :
  ∃ r w' self',
    execute (Scenario.world0, Scenario.slow_then_fast) = Some (r, (w', self'))
    ∧ scan_results self'
      = Some [("10.0.0.7", 81, closed); ("10.0.0.7", 80, open)].
Proof.
  apply (results_in_submission_order Scenario.world0 Scenario.slow_then_fast
           ["10.0.0.7"] [81; 80]); [reflexivity..|].
  repeat constructor.
Defined.



(** C7: when the [update] of an observer raises, the exception leaves
    [execute], the observers registered after it are not called, and the
    results and the two clock readings stored before notifying stay as
    they were. *)
Theorem observer_failure_propagates w self pre o post e :
  conclusive_for (net w) (visited self) →
  observers self = pre ++ o :: post →
  Forall reliable pre →
  update o (notification_of (scanned (w, self)).2) = Some e →
  ∃ w' self',
    execute (w, self) = Some (Raised e, (w', self'))
    ∧ delivered w'
      = delivered w ++ (call_of (notification_of self') <$> pre ++ [o])
    ∧ scan_results self' = Some (outcome_of (net w) <$> visited self)
    ∧ start_time self' = Some (clock w (ticks w))
    ∧ end_time self' = Some (clock w (S (ticks w))).
Proof.
  intros Hc Hobs Hrel Ho.
  rewrite (execute_scanned _ _ Hc). unfold notify_all.
  destruct (scanned (w, self)) as [w1 self1] eqn:Hs.
  assert (observers self1 = observers self ∧ delivered w1 = delivered w
          ∧ scan_results self1 = Some (outcome_of (net w) <$> visited self)
          ∧ start_time self1 = Some (clock w (ticks w))
          ∧ end_time self1 = Some (clock w (S (ticks w))))
    as (Hobs1 & Hdel & Hrs & Ht0 & Ht1).
  { unfold scanned in Hs. injection Hs as <- <-. done. }
  cbn [snd] in *. rewrite Hobs1, Hobs.
  rewrite (notify_each_raising _ _ _ e _ _ (reliable_quiet _ _ Hrel) Ho).
  eexists _, _. split; [reflexivity|].
  unfold with_calls; cbn. by rewrite Hdel.
Qed.

Lemma observer_failure_propagates_witness :
  ∃ w' self',
    execute (Scenario.world0,
             register Scenario.logger
               (register Scenario.broken Scenario.two_by_two))
      = Some (Raised TypeError, (w', self'))
    ∧ delivered w'
      = call_of (notification_of self')
        <$> [Scenario.printer; Scenario.printer; Scenario.broken].
Proof.
  destruct (observer_failure_propagates Scenario.world0
              (register Scenario.logger
                 (register Scenario.broken Scenario.two_by_two))
              [Scenario.printer; Scenario.printer] Scenario.broken
              [Scenario.logger] TypeError)
    as (w' & self' & Hex & Hdel & _).
  - repeat constructor.
  - reflexivity.
  - repeat constructor.
  - reflexivity.
  - exists w', self'. split; [exact Hex|exact Hdel].
Defined.



(** C9: the constructor stores both iterables as given, without iterating
    them. With a single-pass iterator as targets, every target is paired
    with the first port only and the later ports get no task, so fewer than
    [|targets| * |ports|] outcomes are stored as soon as there are two
    ports and one target. With a single-pass iterator as ports, the first
    call of [execute] uses it up and a second call stores an empty result
    sequence. *)
Theorem single_pass_inputs w self :
  (∀ targets ps,
     target_addresses (init targets ps) = targets
     ∧ ports (init targets ps) = ps)
  ∧ (∀ ts p ps,
       target_addresses self = Iterator ts →
       contents (ports self) = p :: ps →
       conclusive_for (net w) ((λ a, (a, p)) <$> ts) →
       ∃ r w' self',
         execute (w, self) = Some (r, (w', self'))
         ∧ scan_results self'
           = Some (outcome_of (net w) <$> ((λ a, (a, p)) <$> ts))
         ∧ (ts ≠ [] → ps ≠ [] →
            (length (outcome_of (net w) <$> ((λ a, (a, p)) <$> ts))
             < length ts * length (p :: ps))%nat))
  ∧ (∀ ps,
       ports self = Iterator ps →
       conclusive_for (net w) (visited self) →
       ∃ r1 w1 self1 r2 w2 self2,
         execute (w, self) = Some (r1, (w1, self1))
         ∧ scan_results self1 = Some (outcome_of (net w) <$> visited self)
         ∧ execute (w1, self1) = Some (r2, (w2, self2))
         ∧ scan_results self2 = Some []).
Proof.
  split; [done|]. split.
  - intros ts p ps Ht Hp Hc.
    assert (Hv : visited self = (λ a, (a, p)) <$> ts).
    { unfold visited. rewrite Hp, Ht. by rewrite bindings_Iterator. }
    rewrite <- Hv in Hc.
    rewrite (execute_scanned _ _ Hc). unfold notify_all.
    destruct (notify_each_returns (observers (scanned (w, self)).2)
                (scanned (w, self)).1 (scanned (w, self)).2) as (r & w' & Hn).
    exists r, w', (scanned (w, self)).2.
    split; [by rewrite <- Hn; destruct (scanned (w, self))|].
    split.
    + unfold scanned; cbn [fst snd scan_results]. fold (visited self).
      by rewrite Hv.
    + intros Hts Hps. rewrite !length_fmap.
      destruct ts; [done|]. destruct ps; [done|]. cbn. lia.
  - intros ps Hp Hc.
    rewrite (execute_scanned _ _ Hc). unfold notify_all.
    destruct (notify_each_returns (observers (scanned (w, self)).2)
                (scanned (w, self)).1 (scanned (w, self)).2) as (r1 & w1 & Hn).
    set (self1 := (scanned (w, self)).2) in *.
    assert (Hp1 : ports self1 = Iterator []).
    { unfold self1, scanned; cbn. by rewrite Hp. }
    assert (Hv1 : visited self1 = []).
    { apply visited_empty. right. by rewrite Hp1. }
    assert (Hc1 : conclusive_for (net w1) (visited self1))
      by (rewrite Hv1; apply conclusive_for_nil).
    pose proof (execute_scanned w1 self1 Hc1) as Hex2. unfold notify_all in Hex2.
    destruct (notify_each_returns (observers (scanned (w1, self1)).2)
                (scanned (w1, self1)).1 (scanned (w1, self1)).2)
      as (r2 & w2 & Hn2).
    exists r1, w1, self1, r2, w2, (scanned (w1, self1)).2.
    split; [by rewrite <- Hn; destruct (scanned (w, self))|].
    split; [done|].
    split; [by rewrite Hex2, <- Hn2; destruct (scanned (w1, self1))|].
    unfold scanned at 1; cbn [fst snd scan_results]. fold (visited self1).
    by rewrite Hv1.
Qed.

Lemma single_pass_inputs_witness :
  (∃ r w' self',
     execute (Scenario.world0, Scenario.generator_targets)
       = Some (r, (w', self'))
     ∧ scan_results self'
       = Some [("10.0.0.7", 80, open); ("10.0.0.8", 80, open)])
  ∧ (∃ r1 w1 self1 r2 w2 self2,
       execute (Scenario.world0, Scenario.generator_ports)
         = Some (r1, (w1, self1))
       ∧ scan_results self1
         = Some [("10.0.0.7", 80, open); ("10.0.0.7", 1, closed)]
       ∧ execute (w1, self1) = Some (r2, (w2, self2))
       ∧ scan_results self2 = Some []).
Proof.
  split.
  - destruct (single_pass_inputs Scenario.world0 Scenario.generator_targets)
      as (_ & Htargets & _).
    destruct (Htargets ["10.0.0.7"; "10.0.0.8"] 80 [1])
      as (r & w' & self' & Hex & Hrs & _).
    + reflexivity.
    + reflexivity.
    + repeat constructor.
    + exists r, w', self'. split; [exact Hex|exact Hrs].
  - destruct (single_pass_inputs Scenario.world0 Scenario.generator_ports)
      as (_ & _ & Hports).
    apply (Hports [80; 1]).
    + reflexivity.
    + repeat constructor.
Defined.

(** ** The port-list parser *)

Section PortsFacts.

Implicit Types (s t : string) (c sep : ascii) (P Q : ascii → bool).

Lemma append_nil t : EmptyString +:+ t = t.
Proof. reflexivity. Qed.

Lemma append_cons c s t : String c s +:+ t = String c (s +:+ t).
Proof. reflexivity. Qed.

Lemma chars_all_app P s t :
  chars_all P (s +:+ t) = chars_all P s && chars_all P t.
Proof.
  induction s as [|c s IH]; [done|].
  rewrite append_cons. cbn. by rewrite IH, andb_assoc.
Qed.

Lemma chars_all_impl P Q s :
  (∀ c, P c = true → Q c = true) →
  chars_all P s = true → chars_all Q s = true.
Proof.
  intros HPQ. induction s as [|c s IH]; cbn; [done|].
  intros [Hc Hs]%andb_true_iff. by rewrite (HPQ _ Hc), IH.
Qed.

Lemma split_free sep s :
  chars_all (is_not sep) s = true → split sep s = [s].
Proof.
  induction s as [|c s IH]; cbn; [done|].
  unfold is_not at 1. intros [Hc Hs]%andb_true_iff.
  apply negb_true_iff in Hc. by rewrite Hc, IH.
Qed.

Lemma split_app sep s t :
  chars_all (is_not sep) s = true →
  split sep (s +:+ String sep t) = s :: split sep t.
Proof.
  induction s as [|c s IH].
  - rewrite append_nil. cbn. by rewrite Ascii.eqb_refl.
  - rewrite append_cons. cbn. unfold is_not at 1.
    intros [Hc Hs]%andb_true_iff.
    apply negb_true_iff in Hc. by rewrite Hc, IH.
Qed.

Lemma split_concat sep (fields : list string) :
  fields ≠ [] →
  Forall (λ s, chars_all (is_not sep) s = true) fields →
  split sep (String.concat (String sep EmptyString) fields) = fields.
Proof.
  induction fields as [|s fields IH]; [done|]. intros _ Hfree.
  apply Forall_cons in Hfree as [Hs Hfree].
  destruct fields as [|s' fields]; cbn.
  - by apply split_free.
  - change (split sep (s +:+ String sep
              (String.concat (String sep EmptyString) (s' :: fields)))
            = s :: s' :: fields).
    rewrite (split_app _ _ _ Hs). by rewrite IH.
Qed.

Lemma digit_not_space c : is_digit c = true → is_space c = false.
Proof.
  unfold is_digit, digit_value, is_space.
  destruct (48 <=? Z.of_nat (nat_of_ascii c)) eqn:Hlo; cbn; [|done].
  intros _. apply Z.leb_le in Hlo.
  apply orb_false_iff; split.
  - apply andb_false_iff; right. apply Nat.leb_gt; lia.
  - apply Nat.eqb_neq. lia.
Qed.

Lemma lstrip_id c s : is_space c = false → lstrip (String c s) = String c s.
Proof. cbn. by intros ->. Qed.

Lemma rstrip_id s :
  chars_all (λ c, negb (is_space c)) s = true → rstrip s = s.
Proof.
  induction s as [|c s IH]; cbn; [done|].
  intros [Hc Hs]%andb_true_iff. apply negb_true_iff in Hc.
  rewrite (IH Hs), Hc. by destruct s.
Qed.

Lemma strip_id s :
  chars_all (λ c, negb (is_space c)) s = true → strip s = s.
Proof.
  intros Hs. unfold strip. destruct s as [|c s]; [done|].
  pose proof Hs as [Hc _]%andb_true_iff. apply negb_true_iff in Hc.
  rewrite (lstrip_id _ _ Hc). by apply rstrip_id.
Qed.

Lemma string_of_uint_digits d :
  chars_all is_digit (NilEmpty.string_of_uint d) = true.
Proof. induction d; cbn; done. Qed.

Lemma int_digits_uint d acc after :
  after = true ∨ d ≠ Decimal.Nil →
  int_digits (Z.of_nat acc) after (NilEmpty.string_of_uint d)
  = Some (Z.of_nat (Nat.of_uint_acc d acc)).
Proof.
  revert acc after.
  induction d as [|d IH|d IH|d IH|d IH|d IH|d IH|d IH|d IH|d IH|d IH];
    intros acc after Hok;
    [by destruct Hok as [->|?]|..];
    cbn [NilEmpty.string_of_uint Nat.of_uint_acc];
    rewrite <- (IH _ true) by (by left);
    cbn -[Z.of_nat Z.mul Z.add Nat.tail_mul];
    f_equal; rewrite Nat.tail_mul_spec;
    match goal with
    | |- context [Z.of_nat (nat_of_ascii ?c)] =>
        let v := eval vm_compute in (Z.of_nat (nat_of_ascii c)) in
        change (Z.of_nat (nat_of_ascii c)) with v
    end; lia.
Qed.

Lemma str_nonempty n : str n ≠ EmptyString.
Proof.
  unfold str. destruct (Nat.to_uint n) eqn:Hn; try done.
  pose proof (DecimalNat.Unsigned.of_to n) as H. rewrite Hn in H.
  cbn in H. by subst n.
Qed.

Lemma str_digits n : chars_all is_digit (str n) = true.
Proof. apply string_of_uint_digits. Qed.

Lemma int_digits_str n : int_digits 0 false (str n) = Some (Z.of_nat n).
Proof.
  unfold str. change 0 with (Z.of_nat 0).
  rewrite int_digits_uint.
  - f_equal. f_equal. apply DecimalNat.Unsigned.of_to.
  - right. intros Hnil. apply (str_nonempty n). unfold str. by rewrite Hnil.
Qed.

Lemma digit_not_special c :
  is_digit c = true →
  Ascii.eqb c "+" = false ∧ Ascii.eqb c "-" = false
  ∧ Ascii.eqb c "_" = false ∧ Ascii.eqb c "," = false.
Proof.
  intros Hc. repeat split;
    (match goal with
     | |- Ascii.eqb c ?x = false => destruct (Ascii.eqb_spec c x) as [->|]
     end; [vm_compute in Hc; discriminate Hc|reflexivity]).
Qed.

Lemma digits_not_space s :
  chars_all is_digit s = true →
  chars_all (λ c, negb (is_space c)) s = true.
Proof.
  apply chars_all_impl. intros c Hc. by rewrite (digit_not_space _ Hc).
Qed.

Lemma digits_free sep s :
  (∀ c, is_digit c = true → Ascii.eqb c sep = false) →
  chars_all is_digit s = true → chars_all (is_not sep) s = true.
Proof.
  intros Hsep. apply chars_all_impl. intros c Hc.
  unfold is_not. by rewrite (Hsep _ Hc).
Qed.

Lemma int_str n : int (str n) = Some (Z.of_nat n).
Proof.
  unfold int. rewrite (strip_id _ (digits_not_space _ (str_digits n))).
  pose proof (int_digits_str n) as Hv.
  pose proof (str_digits n) as Hd. pose proof (str_nonempty n) as Hne.
  destruct (str n) as [|c s]; [done|].
  apply andb_true_iff in Hd as [Hc _].
  destruct (digit_not_special _ Hc) as (-> & -> & _). exact Hv.
Qed.

Lemma int_digits_dash s t acc after :
  chars_all is_digit s = true →
  int_digits acc after (s +:+ String "-" t) = None.
Proof.
  revert acc after. induction s as [|c s IH]; intros acc after Hs.
  - reflexivity.
  - rewrite append_cons. apply andb_true_iff in Hs as [Hc Hs]. cbn.
    destruct (digit_not_special _ Hc) as (_ & _ & -> & _).
    unfold is_digit in Hc. destruct (digit_value c); [|done].
    by apply IH.
Qed.

Lemma int_span a b : int (str a +:+ String "-" (str b)) = None.
Proof.
  unfold int. rewrite strip_id.
  - pose proof (str_digits a) as Hd. pose proof (str_nonempty a) as Hne.
    destruct (str a) as [|c s]; [done|]. rewrite append_cons.
    pose proof Hd as [Hc _]%andb_true_iff.
    destruct (digit_not_special _ Hc) as (-> & -> & _).
    rewrite <- append_cons. by apply int_digits_dash.
  - rewrite chars_all_app. cbn.
    by rewrite !(digits_not_space _ (str_digits _)).
Qed.

Lemma split_span a b :
  split "-" (str a +:+ String "-" (str b)) = [str a; str b].
Proof.
  assert (Hfree : ∀ n, chars_all (is_not "-") (str n) = true).
  { intros n. apply digits_free; [|apply str_digits].
    intros c Hc. by destruct (digit_not_special _ Hc) as (_ & -> & _). }
  rewrite split_app by apply Hfree. by rewrite split_free by apply Hfree.
Qed.

Lemma render_item_free it : chars_all (is_not ",") (render_item it) = true.
Proof.
  assert (Hfree : ∀ n, chars_all (is_not ",") (str n) = true).
  { intros n. apply digits_free; [|apply str_digits].
    intros c Hc. by destruct (digit_not_special _ Hc) as (_ & _ & _ & ->). }
  destruct it as [n|a b]; cbn; [apply Hfree|].
  rewrite chars_all_app. cbn. by rewrite !Hfree.
Qed.

Lemma range_inclusive (a b : nat) :
  range (Z.of_nat a) (Z.of_nat b + 1) = Z.of_nat <$> seq a (S b - a).
Proof.
  unfold range, seqZ.
  replace (Z.to_nat (Z.of_nat b + 1 - Z.of_nat a)) with (S b - a)%nat by lia.
  generalize (S b - a)%nat as k. intros k. revert a.
  induction k as [|k IH]; intros a; [done|].
  cbn [seq fmap list_fmap]. f_equal.
  rewrite <- fmap_S_seq, <- list_fmap_compose, <- IH.
  apply list_fmap_ext. intros _ i _. cbn. lia.
Qed.

Lemma parse_fields_render (items : list port_item) :
  parse_fields (render_item <$> items) = (List.concat (expand <$> items), None).
Proof.
  induction items as [|[n|a b] items IH]; [done|..];
    cbn [fmap list_fmap parse_fields render_item expand List.concat].
  - rewrite int_str. fold (render_item <$> items). by rewrite IH.
  - rewrite int_span, split_span. cbn [unpack_bounds]. rewrite !int_str.
    fold (render_item <$> items). rewrite IH.
    by rewrite range_inclusive.
Qed.

End PortsFacts.

Example int_accepts :
  int " 8_0 " = Some 80 ∧ int "+7" = Some 7 ∧ int "-5" = Some (-5)
  ∧ int "007" = Some 7.
Proof. repeat split. Qed.

Example int_rejects :
  int "" = None ∧ int "20-25" = None ∧ int "8__0" = None ∧ int "_8" = None
  ∧ int "8_" = None ∧ int "- 5" = None ∧ int "0x10" = None.
Proof. repeat split. Qed.

Example split_keeps_empty_fields :
  split "," "" = [""] ∧ split "," "a,,b," = ["a"; ""; "b"; ""].
Proof. repeat split. Qed.

(** Malformed entries end the generator with [ValueError] after the ports
    already yielded; a descending range yields nothing. *)
Example parse_ports_irregular :
  parse_ports "" = ([], Some ValueError)
  ∧ parse_ports "22,1-2-3,80" = ([22], Some ValueError)
  ∧ parse_ports "22,http" = ([22], Some ValueError)
  ∧ parse_ports "25-20,80" = ([80], None).
Proof. repeat split. Qed.

(** C8: a comma-separated list of port numbers and dash ranges is mapped
    to the ports it stands for, entry after entry from left to right, with a
    range [a-b] giving every port from [a] to [b], both included; and
    ["20-25,53,80"] gives 20, 21, 22, 23, 24, 25, 53, 80. *)
Theorem parse_ports_expands (items : list port_item) :
  items ≠ [] →
  parse_ports (render items) = (List.concat (expand <$> items), None)
  ∧ (∀ a b x, x ∈ expand (Span a b)
              ↔ ∃ k, x = Z.of_nat k ∧ (a ≤ k ≤ b)%nat)
  ∧ parse_ports "20-25,53,80" = ([20; 21; 22; 23; 24; 25; 53; 80], None).
Proof.
  intros Hne. split; [|split].
  - unfold parse_ports, render. rewrite split_concat.
    + apply parse_fields_render.
    + by destruct items.
    + apply Forall_fmap, Forall_forall. intros it _. apply render_item_free.
  - intros a b x. unfold expand. rewrite list_elem_of_fmap.
    split; intros (k & -> & Hk); exists k; (split; [done|]).
    + apply elem_of_seq in Hk. lia.
    + apply elem_of_seq. lia.
  - reflexivity.
Qed.

Lemma parse_ports_expands_witness :
  parse_ports "20-25,53,80"
  = (List.concat (expand <$> [Span 20 25; Single 53; Single 80]), None).
Proof.
  apply (parse_ports_expands [Span 20 25; Single 53; Single 80]). done.
Defined.

(** * Further properties of the probe *)

Section ProbeBehaviour.

Context (nw : network) (ip : string) (port : Z).

Lemma not_conclusive_raises :
  conclusive (nw ip port) = false →
  ∃ d e, nw ip port = Fails d e ∧ Qle_bool d 3 = true
         ∧ issubclass_any e
             [ConnectionRefusedError; AsyncioTimeoutError; OSError] = false
         ∧ (probe nw ip port).1 = Raised e.
Proof.
  rewrite probe_unfold. unfold conclusive, network_failure.
  destruct (nw ip port) as [d|d e|]; cbn [handshake_in_time times_out].
  - destruct (Qle_bool d 3); discriminate.
  - destruct (Qle_bool d 3) eqn:Hd; cbn [negb orb]; [|discriminate].
    intros Hos. exists d, e.
    assert (issubclass_any e
              [ConnectionRefusedError; AsyncioTimeoutError; OSError] = false)
      as Hsub by (destruct e; cbn in Hos |- *; done).
    rewrite Hsub. done.
  - discriminate.
Qed.

(** A probe never reports a port open unless the handshake completed in
    time, and the outcome it returns is about the very address and port it
    was given. *)
Theorem probe_reports_faithfully (o : ProbeOutcome) :
  (probe nw ip port).1 = Returned o →
  pair_of o = (ip, port)
  ∧ (o.2 = open ↔ handshake_in_time (nw ip port) = true).
Proof.
  rewrite probe_unfold. unfold pair_of.
  destruct (nw ip port) as [d|d e|]; cbn [handshake_in_time].
  - destruct (Qle_bool d 3); intros [= <-]; cbn; split; done.
  - destruct (Qle_bool d 3); [destruct (issubclass_any _ _)|];
      intros [= <-] || discriminate; cbn; split; done.
  - intros [= <-]; cbn; split; done.
Qed.

(** The only exceptions that leave a probe are those the connection attempt
    itself raises before the deadline and whose class is not below one of
    the three suppressed classes. *)
Theorem probe_raises_iff (e : exn_class) :
  (probe nw ip port).1 = Raised e
  ↔ ∃ d, nw ip port = Fails d e ∧ (d <= 3)%Q
         ∧ issubclass e ConnectionRefusedError = false
         ∧ issubclass e AsyncioTimeoutError = false
         ∧ issubclass e OSError = false.
Proof.
  rewrite probe_unfold. split.
  - destruct (nw ip port) as [d|d e'|].
    + destruct (Qle_bool d 3); discriminate.
    + destruct (Qle_bool d 3) eqn:Hd; [|discriminate].
      destruct (issubclass_any e' _) eqn:Hsub; [discriminate|].
      intros [= ->]. exists d. split; [done|].
      split; [by apply Qle_bool_iff|].
      unfold issubclass_any in Hsub. cbn [existsb] in Hsub.
      rewrite !orb_false_iff in Hsub. tauto.
    + discriminate.
  - intros (d & -> & Hd & H1 & H2 & H3).
    apply Qle_bool_iff in Hd. rewrite Hd.
    unfold issubclass_any. cbn [existsb]. by rewrite H1, H2, H3.
Qed.

End ProbeBehaviour.

Lemma probe_reports_faithfully_witness :
  pair_of ("127.0.0.1", 80, open) = ("127.0.0.1", 80)
  ∧ (open = open ↔ handshake_in_time (Scenario.lan "127.0.0.1" 80) = true).
Proof.
  apply (probe_reports_faithfully Scenario.lan "127.0.0.1" 80
           ("127.0.0.1", 80, open)).
  reflexivity.
Defined.

(** * Further properties of the engine *)

Section EngineBehaviour.

Implicit Types (w : World) (self : AsyncTCPScanner) (obs : list Observer).

Lemma collect_results_inv {A} (children : list (task A)) :
  match collect_results children with
  | Returned vals => task_result <$> children = Returned <$> vals
  | Raised e => ∃ t, t ∈ children ∧ task_result t = Raised e
  end.
Proof.
  induction children as [|t children IH]; cbn; [done|].
  destruct (task_result t) as [a|e] eqn:Ht.
  - destruct (collect_results children) as [vals|e].
    + cbn. by rewrite IH.
    + destruct IH as (t' & Hin & Ht'). exists t'. split; [by right|done].
  - exists t. split; [by left|done].
Qed.

Lemma done_callbacks_settles {A} (children : list (task A)) order k :
  Forall (λ i, (i < length children)%nat) order →
  (length children ≤ k + length order)%nat →
  (k < length children)%nat →
  ∃ r, done_callbacks children order k = Some r
       ∧ match r with
         | Returned vals => task_result <$> children = Returned <$> vals
         | Raised e => ∃ t, t ∈ children ∧ task_result t = Raised e
         end.
Proof.
  revert k. induction order as [|i order IH]; intros k Hvalid Hlen Hk.
  - cbn in Hlen. lia.
  - apply Forall_cons in Hvalid as [Hi Hvalid]. cbn.
    destruct (lookup_lt_is_Some_2 _ _ Hi) as [fut Hfut]. rewrite Hfut.
    destruct (task_result fut) as [a|e] eqn:Hr.
    + destruct (decide (S k = length children)) as [Heq|Hne].
      * eexists. split; [done|]. apply collect_results_inv.
      * apply IH; [done|cbn in Hlen; lia|lia].
    + eexists. split; [done|]. exists fut. split; [|done].
      by eapply list_elem_of_lookup_2.
Qed.

(** [gather] always settles: with the values of all children in the order
    of the children, or with the exception of one of them. *)
Lemma gather_settles {A} (children : list (task A)) :
  ∃ r, gather children = Some r
       ∧ match r with
         | Returned vals => task_result <$> children = Returned <$> vals
         | Raised e => ∃ t, t ∈ children ∧ task_result t = Raised e
         end.
Proof.
  unfold gather. destruct children as [|t children].
  - by exists (Returned []).
  - apply done_callbacks_settles.
    + apply completion_order_valid.
    + rewrite completion_order_length. lia.
    + cbn. lia.
Qed.

(** [execute] up to the point where the scan result is known. *)
Lemma execute_unfold w self :
  execute (w, self) =
    match gather (scan_task (net w) <$> visited self) with
    | None => None
    | Some (Returned rs) =>
        notify_all
          ({| net := net w; clock := clock w; ticks := S (S (ticks w));
              delivered := delivered w |},
           {| target_addresses :=
                (bindings (contents (ports self)) (target_addresses self)).2;
              ports := (iterate (ports self)).2;
              start_time := Some (clock w (ticks w));
              end_time := Some (clock w (S (ticks w)));
              scan_results := Some rs;
              observers := observers self |})
    | Some (Raised e) =>
        Some (Raised e,
              ({| net := net w; clock := clock w; ticks := S (ticks w);
                  delivered := delivered w |},
               {| target_addresses :=
                    (bindings (contents (ports self))
                       (target_addresses self)).2;
                  ports := (iterate (ports self)).2;
                  start_time := Some (clock w (ticks w));
                  end_time := end_time self;
                  scan_results := scan_results self;
                  observers := observers self |}))
    end.
Proof.
  unfold visited, contents.
  unfold execute, mbind, method_bind.
  unfold time_time, set_start_time, scan_targets, scans.
  unfold set_scan_results, set_end_time, notify_all.
  destruct (iterate (ports self)) as [ps ports'] eqn:Hit; cbn [fst snd] in *.
  destruct (bindings ps (target_addresses self)) as [prs targets'] eqn:Hb;
    cbn [fst snd] in *.
  cbn. rewrite Hit, Hb.
  destruct (gather (scan_task (net w) <$> prs)) as [[rs|e]|]; reflexivity.
Qed.

(** When some probe of the scan lets an exception out, [execute] raises the
    exception of one such probe; the start time has already been
    overwritten, but [scan_results] and [end_time] keep whatever an earlier
    call had stored, and no observer is notified. *)
Theorem execute_scan_failure w self :
  ¬ conclusive_for (net w) (visited self) →
  ∃ e pr w' self',
    execute (w, self) = Some (Raised e, (w', self'))
    ∧ pr ∈ visited self
    ∧ (probe (net w) pr.1 pr.2).1 = Raised e
    ∧ start_time self' = Some (clock w (ticks w))
    ∧ end_time self' = end_time self
    ∧ scan_results self' = scan_results self
    ∧ delivered w' = delivered w.
Proof.
  intros Hbad. rewrite execute_unfold.
  destruct (gather_settles (scan_task (net w) <$> visited self))
    as ([rs|e] & -> & Hr).
  - exfalso. apply Hbad. unfold conclusive_for.
    apply Forall_forall. intros pr Hin.
    destruct (conclusive (net w pr.1 pr.2)) eqn:Hc; [done|].
    destruct (not_conclusive_raises _ _ _ Hc) as (d & e & _ & _ & _ & He).
    apply list_elem_of_lookup in Hin as [i Hi].
    assert ((task_result <$> (scan_task (net w) <$> visited self)) !! i
            = Some (Raised e)) as Hi'.
    { rewrite !list_lookup_fmap, Hi. cbn.
      by rewrite task_result_scan_task, He. }
    rewrite Hr, list_lookup_fmap in Hi'.
    destruct (rs !! i); discriminate Hi'.
  - destruct Hr as (t & Hin & Ht).
    apply list_elem_of_fmap in Hin as (pr & -> & Hin).
    rewrite task_result_scan_task in Ht.
    eexists e, pr, _, _. split; [reflexivity|]. done.
Qed.

(** Observers are always called along a prefix of the registration order,
    all with the same arguments: whether or not some [update] raises, the
    calls made by a scan that succeeded are those of the first [k]
    observers, for some [k]. *)
Theorem notifications_form_a_prefix w self :
  conclusive_for (net w) (visited self) →
  ∃ r w' self' k,
    execute (w, self) = Some (r, (w', self'))
    ∧ delivered w'
      = delivered w
        ++ (call_of (notification_of self') <$> take k (observers self))
    ∧ (r = Returned tt → k = length (observers self)).
Proof.
  intros Hc. rewrite (execute_scanned _ _ Hc). unfold notify_all.
  destruct (scanned (w, self)) as [w1 self1] eqn:Hs.
  assert (observers self1 = observers self ∧ delivered w1 = delivered w)
    as (Hobs & Hdel).
  { unfold scanned in Hs. injection Hs as <- <-. done. }
  cbn [snd]. rewrite Hobs, <- Hdel. clear Hs Hobs Hdel Hc.
  generalize (observers self) as obs. intros obs. revert w1.
  induction obs as [|o obs IH]; intros w1.
  - exists (Returned tt), w1, self1, 0%nat. cbn.
    split; [done|]. split; [by rewrite app_nil_r|done].
  - cbn. unfold mbind, method_bind, call_update.
    destruct (update o (notification_of self1)) as [e|] eqn:Ho.
    + eexists (Raised e), _, self1, 1%nat. split; [done|].
      cbn. split; [done|]. discriminate.
    + destruct (IH {| net := net w1; clock := clock w1; ticks := ticks w1;
                      delivered := delivered w1
                                   ++ [(obs_id o, notification_of self1)] |})
        as (r & w' & self' & k & Hn & Hd & Hk).
      pose proof (notify_each_returns obs
        {| net := net w1; clock := clock w1; ticks := ticks w1;
           delivered := delivered w1
                        ++ [(obs_id o, notification_of self1)] |} self1)
        as (r0 & w0 & Hn0).
      rewrite Hn0 in Hn. injection Hn as <- <- <-.
      rewrite Hn0. exists r0, w0, self1, (S k). split; [done|].
      split; [|intros Hr; by rewrite (Hk Hr)].
      rewrite Hd. cbn. by rewrite <- app_assoc.
Qed.

End EngineBehaviour.

Lemma execute_scan_failure_witness :
  ∃ e pr w' self',
    execute (Scenario.world0, init (Sequence ["10.0.0.7"; "a..b"])
                                   (Sequence [80]))
      = Some (Raised e, (w', self'))
    ∧ pr ∈ [("10.0.0.7", 80); ("a..b", 80)]
    ∧ (probe Scenario.lan pr.1 pr.2).1 = Raised e
    ∧ start_time self' = Some (Scenario.wall_clock 0)
    ∧ end_time self' = None
    ∧ scan_results self' = None
    ∧ delivered w' = [].
Proof.
  apply (execute_scan_failure Scenario.world0
           (init (Sequence ["10.0.0.7"; "a..b"]) (Sequence [80]))).
  intros H. apply Forall_cons in H as [_ H].
  apply Forall_cons in H as [H _]. discriminate H.
Defined.

Lemma notifications_form_a_prefix_witness :
  ∃ r w' self' k,
    execute (Scenario.world0,
             register Scenario.logger
               (register Scenario.broken Scenario.two_by_two))
      = Some (r, (w', self'))
    ∧ delivered w'
      = [] ++ (call_of (notification_of self')
               <$> take k [Scenario.printer; Scenario.printer;
                           Scenario.broken; Scenario.logger])
    ∧ (r = Returned tt → k = 4%nat).
Proof.
  apply (notifications_form_a_prefix Scenario.world0
           (register Scenario.logger
              (register Scenario.broken Scenario.two_by_two))).
  repeat constructor.
Defined.

Section Repeatability.

Implicit Types (w : World) (self : AsyncTCPScanner).



End Repeatability.


(** * Further properties of the port-list parser *)

Section ParserBehaviour.

Implicit Types (s t : string) (c sep : ascii).

Lemma split_nonempty sep s : ∃ field fields, split sep s = field :: fields.
Proof.
  induction s as [|c s (f & fs & IH)]; cbn; [by eexists _, _|].
  destruct (Ascii.eqb c sep); [by eexists _, _|].
  rewrite IH. by eexists _, _.
Qed.

Lemma split_at sep s t :
  split sep (s +:+ String sep t) = split sep s ++ split sep t.
Proof.
  induction s as [|c s IH].
  - rewrite append_nil. cbn. by rewrite Ascii.eqb_refl.
  - rewrite append_cons. cbn. destruct (Ascii.eqb c sep).
    + by rewrite IH.
    + rewrite IH. by destruct (split_nonempty sep s) as (f & fs & ->).
Qed.

Lemma parse_fields_app (l1 l2 : list string) :
  parse_fields (l1 ++ l2) =
    match parse_fields l1 with
    | (yielded, None) =>
        (yielded ++ (parse_fields l2).1, (parse_fields l2).2)
    | (yielded, Some e) => (yielded, Some e)
    end.
Proof.
  induction l1 as [|port l1 IH]; cbn [app parse_fields].
  - by destruct (parse_fields l2).
  - destruct (int port) as [n|].
    + rewrite IH. by destruct (parse_fields l1) as [ys [e|]].
    + destruct (unpack_bounds _) as [[start stop]|]; [|done].
      rewrite IH. destruct (parse_fields l1) as [ys [e|]]; [done|].
      by rewrite app_assoc.
Qed.

Lemma parse_fields_error (l : list string) e :
  (parse_fields l).2 = Some e → e = ValueError.
Proof.
  induction l as [|port l IH]; cbn; [done|].
  destruct (int port) as [n|].
  - by destruct (parse_fields l).
  - destruct (unpack_bounds _) as [[start stop]|].
    + by destruct (parse_fields l).
    + by intros [= <-].
Qed.

(** Parsing goes entry by entry: the ports of what stands before a comma
    come first, and what stands after the comma is only looked at when
    nothing before it was malformed. *)
Theorem parse_ports_at_comma s t :
  parse_ports (s +:+ String "," t) =
    match parse_ports s with
    | (yielded, None) => (yielded ++ (parse_ports t).1, (parse_ports t).2)
    | (yielded, Some e) => (yielded, Some e)
    end.
Proof. unfold parse_ports. by rewrite split_at, parse_fields_app. Qed.

(** An empty entry (a doubled, leading or trailing comma, or no text at
    all) ends the generator with [ValueError]: the ports before it have
    been yielded, nothing after it is. *)
Theorem parse_ports_empty_entry s t :
  parse_ports (s +:+ ",") = ((parse_ports s).1, Some ValueError)
  ∧ parse_ports (s +:+ String "," (String "," t))
    = ((parse_ports s).1, Some ValueError)
  ∧ parse_ports (String "," t) = ([], Some ValueError).
Proof.
  assert (Hempty : ∀ u, parse_ports (String "," u) = ([], Some ValueError)).
  { intros u. change (String "," u) with (EmptyString +:+ String "," u).
    rewrite parse_ports_at_comma. reflexivity. }
  split; [|split; [|apply Hempty]].
  - rewrite parse_ports_at_comma.
    destruct (parse_ports s) as [ys [e|]] eqn:Hs; cbn.
    + by rewrite (parse_fields_error (split "," s) e)
        by (unfold parse_ports in Hs; by rewrite Hs).
    + by rewrite app_nil_r.
  - rewrite parse_ports_at_comma, Hempty.
    destruct (parse_ports s) as [ys [e|]] eqn:Hs; cbn.
    + by rewrite (parse_fields_error (split "," s) e)
        by (unfold parse_ports in Hs; by rewrite Hs).
    + by rewrite app_nil_r.
Qed.

Lemma int_minus n : int (String "-" (str n)) = Some (- Z.of_nat n).
Proof.
  unfold int. rewrite strip_id.
  - cbn. by rewrite int_digits_str.
  - cbn. apply digits_not_space, str_digits.
Qed.

Lemma str_free sep n :
  (∀ c, is_digit c = true → Ascii.eqb c sep = false) →
  chars_all (is_not sep) (str n) = true.
Proof. intros H. by apply digits_free, str_digits. Qed.

Lemma digit_not_dash c : is_digit c = true → Ascii.eqb c "-" = false.
Proof. intros Hc. by destruct (digit_not_special _ Hc) as (_ & -> & _). Qed.

Lemma digit_not_comma c : is_digit c = true → Ascii.eqb c "," = false.
Proof. intros Hc. by destruct (digit_not_special _ Hc) as (_ & _ & _ & ->). Qed.

(** A leading dash is a minus sign, not a range: ["-n"] yields the negative
    number [-n] unchecked, and ["-a-b"], which splits into three fields,
    is rejected with [ValueError]. *)
Theorem parse_ports_leading_dash (n a b : nat) :
  parse_ports (String "-" (str n)) = ([- Z.of_nat n], None)
  ∧ parse_ports (String "-" (str a +:+ String "-" (str b)))
    = ([], Some ValueError).
Proof.
  split.
  - unfold parse_ports. rewrite split_free.
    + cbn. by rewrite int_minus.
    + cbn. apply (str_free _ _ digit_not_comma).
  - unfold parse_ports. rewrite split_free.
    + cbn [parse_fields].
      assert (int (String "-" (str a +:+ String "-" (str b))) = None) as ->.
      { unfold int. rewrite strip_id.
        - cbn. by rewrite int_digits_dash by apply str_digits.
        - cbn. rewrite chars_all_app. cbn.
          by rewrite !(digits_not_space _ (str_digits _)). }
      change (String "-" (str a +:+ String "-" (str b)))
        with (EmptyString +:+ String "-" (str a +:+ String "-" (str b))).
      rewrite split_at, split_span. reflexivity.
    + cbn. rewrite chars_all_app. cbn.
      by rewrite !(str_free _ _ digit_not_comma).
Qed.

Lemma space_not_comma c : is_space c = true → is_not "," c = true.
Proof.
  intros Hc. unfold is_not.
  destruct (Ascii.eqb_spec c ",") as [->|]; [discriminate Hc|done].
Qed.

Lemma lstrip_spaces l s :
  chars_all is_space l = true → lstrip (l +:+ s) = lstrip s.
Proof.
  induction l as [|c l IH]; [done|]. rewrite append_cons. cbn.
  intros [-> Hl]%andb_true_iff. by apply IH.
Qed.

Lemma rstrip_spaces r : chars_all is_space r = true → rstrip r = EmptyString.
Proof.
  induction r as [|c r IH]; cbn; [done|].
  intros [-> Hr]%andb_true_iff. by rewrite IH.
Qed.

Lemma rstrip_app_spaces s r :
  chars_all (λ c, negb (is_space c)) s = true →
  chars_all is_space r = true →
  rstrip (s +:+ r) = s.
Proof.
  intros Hs Hr. induction s as [|c s IH].
  - rewrite append_nil. by apply rstrip_spaces.
  - rewrite append_cons. cbn. apply andb_true_iff in Hs as [Hc Hs].
    apply negb_true_iff in Hc. rewrite (IH Hs), Hc. by destruct s.
Qed.

(** White space around a port number is ignored. *)
Theorem parse_ports_ignores_spaces (l r : string) (n : nat) :
  chars_all is_space l = true →
  chars_all is_space r = true →
  parse_ports (l +:+ str n +:+ r) = ([Z.of_nat n], None).
Proof.
  intros Hl Hr.
  assert (Hint : int (l +:+ str n +:+ r) = Some (Z.of_nat n)).
  { pose proof (int_str n) as Hn. unfold int in *.
    rewrite (strip_id _ (digits_not_space _ (str_digits n))) in Hn.
    unfold strip. rewrite (lstrip_spaces _ _ Hl).
    pose proof (str_digits n) as Hd. pose proof (str_nonempty n) as Hne.
    destruct (str n) as [|c s] eqn:Hstr; [done|].
    pose proof Hd as [Hc _]%andb_true_iff.
    rewrite append_cons, lstrip_id by (by apply digit_not_space).
    rewrite <- append_cons, rstrip_app_spaces
      by (done || by apply digits_not_space).
    exact Hn. }
  unfold parse_ports. rewrite split_free.
  - cbn. by rewrite Hint.
  - rewrite !chars_all_app.
    rewrite (chars_all_impl _ _ _ space_not_comma Hl).
    rewrite (chars_all_impl _ _ _ space_not_comma Hr).
    by rewrite (str_free _ _ digit_not_comma).
Qed.

Lemma concat_split_cons sep (f : string) (fs : list string) s :
  split sep s = f :: fs →
  String.concat (String sep EmptyString) (EmptyString :: split sep s)
  = String sep (String.concat (String sep EmptyString) (split sep s)).
Proof. intros ->. reflexivity. Qed.

(** Splitting loses nothing: there is always at least one field, and the
    fields joined by the separator give the text back. *)
Theorem split_join sep s :
  split sep s ≠ []
  ∧ String.concat (String sep EmptyString) (split sep s) = s.
Proof.
  split.
  - by destruct (split_nonempty sep s) as (f & fs & ->).
  - induction s as [|c s IH]; [done|]. cbn [split].
    destruct (Ascii.eqb_spec c sep) as [->|Hc].
    + destruct (split_nonempty sep s) as (f & fs & Hs).
      rewrite (concat_split_cons _ _ _ _ Hs). by rewrite IH.
    + destruct (split_nonempty sep s) as (f & fs & Hs).
      rewrite Hs in IH |- *. rewrite <- IH.
      destruct fs; reflexivity.
Qed.

End ParserBehaviour.

Lemma parse_ports_ignores_spaces_witness :
  parse_ports " 443  " = ([443], None).
Proof.
  apply (parse_ports_ignores_spaces " " "  " 443); reflexivity.
Defined.

(** * Properties of the reporting observer *)

Section ScreenBehaviour.

Context (ctime format_3f : Q → string).
Implicit Types (w : World) (self : AsyncTCPScanner) (args : notification).









End ScreenBehaviour.


